(** * Verification of slivka's job-execution core

    The development follows the layout of the repository:
    - [Utils] embeds [slivka/utils.py]: the [BackoffCounter] retry pacer
      and the [JobStatus] enumeration;
    - [Scheduler] covers the command rendering and job layer
      ([CommandOption], [Executor], [Job]) that the executor tests exercise.

    Python integers are unbounded, hence [Z]; attribute mutation is
    explicit state passing in a small state-and-exception monad. *)

From Stdlib Require Import ZArith Lia Ascii.
From stdpp Require Import base numbers list strings gmap.

Local Open Scope Z_scope.

(* ===================================================================== *)
(** * slivka/utils.py *)
(* ===================================================================== *)

Module Utils.

(** Exceptions that the modelled fragment can raise. *)
Inductive exn : Set :=
| StopIteration   (* an exhausted iterator *)
| ValueError.     (* [1 << n] with a negative [n] *)

Definition exn_eqb (a b : exn) : bool :=
  match a, b with
  | StopIteration, StopIteration | ValueError, ValueError => true
  | _, _ => false
  end.

(** The two kinds of iterator objects a counter ever holds.
    [it_repeat v] is [itertools.repeat(v)]; [it_reversed_range n] is
    [reversed(range(n))] with [n] items still to come, the next one being
    [n - 1]. *)
Inductive iterator : Set :=
| it_repeat (v : Z)
| it_reversed_range (n : Z).

(** [next(it)]: the value and the advanced iterator, or [StopIteration]. *)
Definition iter_next (it : iterator) : (Z * iterator) + exn :=
  match it with
  | it_repeat v => inl (v, it_repeat v)
  | it_reversed_range n =>
      if 0 <? n then inl (n - 1, it_reversed_range (n - 1))
      else inr StopIteration
  end.

(** [a << b] on Python ints. *)
Definition py_lshift (a b : Z) : Z + exn :=
  if b <? 0 then inr ValueError else inl (Z.shiftl a b).

(** ** class BackoffCounter *)

Record BackoffCounter : Set := mkBackoffCounter {
  _counter : iterator;
  _tries : Z;
  max_tries : Z;
  current : Z
}.

(** The class attribute [_zero_gen = itertools.repeat(0)], shared by all
    instances; advancing it never changes what it yields. *)
Definition _zero_gen : iterator := it_repeat 0.

(** Result of running a method: it returned or it raised; either way the
    object is left in the state reached so far. *)
Inductive outcome (A : Type) : Type :=
| Returned (a : A)
| Raised (e : exn).
Arguments Returned {A} a.
Arguments Raised {A} e.

Definition M (A : Type) : Type := BackoffCounter → outcome A * BackoffCounter.

Definition ret {A} (a : A) : M A := λ s, (Returned a, s).

Definition bind {A B} (m : M A) (k : A → M B) : M B :=
  λ s, match m s with
       | (Returned a, s') => k a s'
       | (Raised e, s') => (Raised e, s')
       end.

Definition raise {A} (e : exn) : M A := λ s, (Raised e, s).

Definition lift {A} (r : A + exn) : M A :=
  match r with inl a => ret a | inr e => raise e end.

(** [try: body except e: handler] *)
Definition try_except {A} (body : M A) (e : exn) (handler : M A) : M A :=
  λ s, match body s with
       | (Raised e', s') =>
           if exn_eqb e e' then handler s' else (Raised e', s')
       | r => r
       end.

(** The monad structure, so that stdpp's [x ← m; k] and [m ;; k] read as
    Python statement sequencing. *)
#[local] Instance M_ret : MRet M := @ret.
#[local] Instance M_bind : MBind M := λ A B k m, bind m k.

(** Attribute reads and writes on [self]. *)
Definition attr {A} (f : BackoffCounter → A) : M A := λ s, (Returned (f s), s).

Definition set_counter (it : iterator) : M unit :=
  λ s, (Returned (), mkBackoffCounter it (_tries s) (max_tries s) (current s)).
Definition set_tries (t : Z) : M unit :=
  λ s, (Returned (), mkBackoffCounter (_counter s) t (max_tries s) (current s)).
Definition set_current (c : Z) : M unit :=
  λ s, (Returned (), mkBackoffCounter (_counter s) (_tries s) (max_tries s) c).

(** [next(self._counter)]: advances the iterator held by the object. *)
Definition next_counter : M Z :=
  it ← attr _counter;
  match iter_next it with
  | inl (v, it') => set_counter it' ;; ret v
  | inr e => raise e
  end.

(** [BackoffCounter(max_tries)] *)
Definition __init__ (max_tries : Z) : BackoffCounter :=
  {| _counter := _zero_gen; _tries := 0; max_tries := max_tries; current := 0 |}.

Definition reset : M unit :=
  set_counter _zero_gen ;;
  set_tries 0 ;;
  set_current 0.

Definition __next__ : M Z :=
  try_except
    (v ← next_counter; set_current v)
    StopIteration
    (reset ;; v ← next_counter; set_current v) ;;
  attr current.

Definition next : M Z := __next__.

(** The read-only property [give_up]; [give_up] being a tactic name, the
    definition carries a trailing underscore. *)
Definition give_up_ (s : BackoffCounter) : bool :=
  _tries s >=? max_tries s.

Definition failure : M unit :=
  m ← attr max_tries;
  t ← attr _tries;
  set_tries (Z.min m (t + 1)) ;;
  t ← attr _tries;
  c ← lift (py_lshift 1 t);
  set_current c ;;
  c ← attr current;
  set_counter (it_reversed_range c).

(** [k] consecutive [failure()] calls. *)
Fixpoint failures (k : nat) : M unit :=
  match k with
  | O => ret ()
  | S k' => failure ;; failures k'
  end.

(** [k] consecutive [next()] calls, with the values they return. *)
Fixpoint nexts (k : nat) : M (list Z) :=
  match k with
  | O => ret []
  | S k' => v ← next; vs ← nexts k'; ret (v :: vs)
  end.

(** A caller's use of the counter: a sequence of method calls.  A call
    that raises leaves the object as it was at the raise; the caller goes
    on with the same object. *)
Inductive call : Set := CallFailure | CallNext | CallReset.

Definition do_call (c : call) (s : BackoffCounter) : BackoffCounter :=
  match c with
  | CallFailure => snd (failure s)
  | CallNext => snd (next s)
  | CallReset => snd (reset s)
  end.

Definition history (h : list call) (s : BackoffCounter) : BackoffCounter :=
  fold_left (λ s c, do_call c s) h s.

(** ** class JobStatus(enum.IntEnum) *)

Inductive JobStatus : Set :=
| PENDING | REJECTED | ACCEPTED | QUEUED | RUNNING | COMPLETED
| INTERRUPTED | DELETED | FAILED | ERROR | UNKNOWN.

(** The integer value of each member. *)
Definition value (s : JobStatus) : Z :=
  match s with
  | PENDING => 1 | REJECTED => 2 | ACCEPTED => 3 | QUEUED => 4
  | RUNNING => 5 | COMPLETED => 6 | INTERRUPTED => 7 | DELETED => 8
  | FAILED => 9 | ERROR => 10 | UNKNOWN => 11
  end.

(** [x in tuple] compares with [==], which on an IntEnum is equality of
    the integer values. *)
Definition py_in (x : JobStatus) (t : list JobStatus) : bool :=
  existsb (λ y, value x =? value y) t.

Definition is_finished (self : JobStatus) : bool :=
  negb (py_in self [PENDING; ACCEPTED; QUEUED; RUNNING]).

Definition all_statuses : list JobStatus :=
  [PENDING; REJECTED; ACCEPTED; QUEUED; RUNNING; COMPLETED;
   INTERRUPTED; DELETED; FAILED; ERROR; UNKNOWN].

(** ** class Singleton(type) *)

Section Singleton.
(** Classes, constructor arguments, instances and the exceptions a
    constructor may raise.  [construct cls args] is
    [super().__call__] on the arguments; it receives the registry because
    a constructor may itself instantiate singleton classes. *)
Context {Cls Args Inst Exc : Type} `{Countable Cls}.
Context (construct : Cls → Args → gmap Cls Inst → (Inst + Exc) * gmap Cls Inst).
Context (no_args : Args).

(** [Singleton.__call__(cls, *args, **kwargs)] on the registry
    [Singleton.__instances], which all singleton classes share. *)
Definition Singleton__call__ (cls : Cls) (args : Args)
    (__instances : gmap Cls Inst) : (Inst + Exc) * gmap Cls Inst :=
  match __instances !! cls with
  | None =>
      match construct cls args __instances with
      | (inl obj, __instances') => (inl obj, <[cls := obj]> __instances')
      | (inr e, __instances') => (inr e, __instances')
      end
  | Some obj => (inl obj, __instances)
  end.

(** The property [instance]: [cls()]. *)
Definition instance (cls : Cls) (__instances : gmap Cls Inst)
  : (Inst + Exc) * gmap Cls Inst :=
  Singleton__call__ cls no_args __instances.
End Singleton.

(** ** class lazy_property *)

(** [s.startswith(prefix)] and [s.endswith(suffix)]. *)
Definition py_startswith (s prefix : string) : bool := String.prefix prefix s.

Definition py_endswith (s suffix : string) : bool :=
  let n := String.length s in
  let k := String.length suffix in
  if (k <=? n)%nat then String.eqb (String.substring (n - k) k s) suffix
  else false.

(** The key under which [__get__] stores the computed value: the
    initializer's [__name__], with the owner's name put in front when it
    is a private name (two leading underscores, not two trailing ones). *)
Definition cache_name (init_name owner_name : string) : string :=
  if py_startswith init_name "__" && negb (py_endswith init_name "__")
  then "_" +:+ owner_name +:+ init_name
  else init_name.

Section LazyProperty.
(** Attribute values and the exceptions an initializer may raise.  An
    instance is its [__dict__]; the initializer is a method of the
    instance and may change it. *)
Context {Val Exc : Type}.

Record lazy_property : Type := mk_lazy_property {
  _init_name : string;    (* [self._init.__name__] *)
  _init : gmap string Val → (Val + Exc) * gmap string Val
}.

(** What an attribute access gives. *)
Inductive access : Type :=
| GotValue (v : Val)
| GotDescriptor (d : lazy_property)
| GotRaised (e : Exc)
| AttributeError.

(** [lazy_property.__get__(self, instance, owner)], [owner] given by its
    [__name__]; [instance] is [None] for an access on the class. *)
Definition __get__ (self : lazy_property)
    (instance : option (gmap string Val)) (owner_name : string)
  : access * option (gmap string Val) :=
  match instance with
  | None => (GotDescriptor self, None)
  | Some __dict__ =>
      match _init self __dict__ with
      | (inl val, __dict__') =>
          let name := cache_name (_init_name self) owner_name in
          (GotValue val, Some (<[name := val]> __dict__'))
      | (inr e, __dict__') => (GotRaised e, Some __dict__')
      end
  end.

(** [obj.attr] on an instance [obj] with the given [__dict__], of a class
    named [owner_name] whose class attributes of interest are the lazy
    properties [class_attrs].  A lazy property has [__get__] only, so the
    instance's own [__dict__] is consulted before it. *)
Definition getattr (class_attrs : gmap string lazy_property)
    (owner_name : string) (__dict__ : gmap string Val) (attr : string)
  : access * gmap string Val :=
  match __dict__ !! attr with
  | Some v => (GotValue v, __dict__)
  | None =>
      match class_attrs !! attr with
      | Some d =>
          match __get__ d (Some __dict__) owner_name with
          | (r, Some __dict__') => (r, __dict__')
          | (r, None) => (r, __dict__)
          end
      | None => (AttributeError, __dict__)
      end
  end.
End LazyProperty.

(** ** _include_constructor *)

(** Scalars of a loaded document. *)
Inductive scalar : Set :=
| SNull
| SBool (b : bool)
| SInt (n : Z)
| SStr (s : string).

(** Loaded documents: scalars, sequences (Python lists) and mappings
    (the [OrderedDict] that [_mapping_constructor] builds, as its items in
    order; its keys are pairwise different). *)
#[local] Unset Elimination Schemes.
Inductive yaml : Set :=
| YScalar (v : scalar)
| YSeq (items : list yaml)
| YMap (items : list (scalar * yaml)).
#[local] Set Elimination Schemes.

Inductive include_error (Exc : Type) : Type :=
| KeyError (key : string)       (* [obj[key]]: no such key in the mapping *)
| TypeError                     (* [obj[key]]: [obj] is no mapping *)
| LoadError (e : Exc).          (* [open] or [yaml.load] raised *)
Arguments KeyError {Exc} key.
Arguments TypeError {Exc}.
Arguments LoadError {Exc} e.

(** [s.split(sep, 1)] for a one-character separator: the text before the
    first [sep] and the text after it, if [sep] occurs. *)
Fixpoint partition_first (sep : Ascii.ascii) (s : string)
  : option (string * string) :=
  match s with
  | "" => None
  | String c s' =>
      if Ascii.eqb c sep then Some ("", s')
      else match partition_first sep s' with
           | Some (before, after) => Some (String c before, after)
           | None => None
           end
  end.

Definition py_split_once (sep : Ascii.ascii) (s : string) : list string :=
  match partition_first sep s with
  | Some (before, after) => [before; after]
  | None => [s]
  end.

(** [s.split(sep)] for a one-character separator. *)
Fixpoint py_split (sep : Ascii.ascii) (s : string) : list string :=
  match s with
  | "" => [""]
  | String c s' =>
      if Ascii.eqb c sep then "" :: py_split sep s'
      else match py_split sep s' with
           | piece :: pieces => String c piece :: pieces
           | [] => [String c ""]
           end
  end.

(** [filter(None, strings)]: the non-empty ones. *)
Definition filter_nonempty (l : list string) : list string :=
  List.filter (λ s, negb (String.eqb s "")) l.

(** [os.path.join(a, b)] on POSIX. *)
Definition path_join (a b : string) : string :=
  if py_startswith b "/" then b
  else if String.eqb a "" || py_endswith a "/" then a +:+ b
  else a +:+ "/" +:+ b.

(** [obj[key]] for a string [key]. *)
Fixpoint dict_get (items : list (scalar * yaml)) (key : string)
  : option yaml :=
  match items with
  | [] => None
  | (SStr k, v) :: items' =>
      if String.eqb k key then Some v else dict_get items' key
  | _ :: items' => dict_get items' key
  end.

Definition getitem {Exc : Type} (obj : yaml) (key : string)
  : yaml + include_error Exc :=
  match obj with
  | YMap items =>
      match dict_get items key with
      | Some v => inl v
      | None => inr (KeyError key)
      end
  | _ => inr TypeError
  end.

(** [for key in keys: obj = obj[key]] *)
Fixpoint descend {Exc : Type} (obj : yaml) (keys : list string)
  : yaml + include_error Exc :=
  match keys with
  | [] => inl obj
  | key :: keys' =>
      match getitem obj key with
      | inl obj' => descend obj' keys'
      | inr e => inr e
      end
  end.

Section Include.
(** [load fn] is [open(fn)] followed by [yaml.load] with the same loader
    class: the document in the file, or what went wrong. *)
Context {Exc : Type} (load : string → yaml + Exc).

(** [_include_constructor(loader, node)], [root_path] being
    [loader.root_path] and [text] the scalar of [node]. *)
Definition _include_constructor (root_path text : string)
  : yaml + include_error Exc :=
  let val := py_split_once "#" text in
  let '(fn, path) :=
    match val with
    | [fn; path] => (fn, path)
    | _ => (List.hd "" val, "/")
    end in
  let fn := path_join root_path fn in
  match load fn with
  | inr e => inr (LoadError e)
  | inl obj => descend obj (filter_nonempty (py_split "/" path))
  end.
End Include.

End Utils.

(* ===================================================================== *)
(** * The scheduler layer: CommandOption, Executor, FileResult, Job *)
(* ===================================================================== *)

Module Scheduler.

(** A template is literal text with occurrences of the substitution
    placeholder. *)
Inductive piece : Set :=
| Lit (a : Ascii.ascii)
| Placeholder.

Definition placeholder : string := "${value}".

(** Modelled from the spec: the module defining [CommandOption] is not part
    of the sources at hand, so the template syntax follows the spec's
    examples: the placeholder is written [${value}], every other character
    is literal text. *)
Fixpoint parse (s : string) : list piece :=
  match s with
  | "" => []
  | String c1 s' =>
      match s' with
      | String c2 (String c3 (String c4 (String c5
          (String c6 (String c7 (String c8 rest)))))) =>
          if String.eqb
               (String c1 (String c2 (String c3 (String c4 (String c5
                  (String c6 (String c7 (String c8 ""))))))))
               placeholder
          then Placeholder :: parse rest
          else Lit c1 :: parse s'
      | _ => Lit c1 :: parse s'
      end
  end.

(** Literal text: no character of it is read as a placeholder. *)
Fixpoint literal (s : string) : list piece :=
  match s with
  | "" => []
  | String c s' => Lit c :: literal s'
  end.

(** The text obtained by putting [v] for every placeholder. *)
Fixpoint substitute (v : string) (ps : list piece) : string :=
  match ps with
  | [] => ""
  | Lit a :: ps' => String a (substitute v ps')
  | Placeholder :: ps' => v +:+ substitute v ps'
  end.

(** Modelled from the spec: whitespace tokenization of the option's own
    literal text, the substituted value [v] going into the token under
    construction as one unit, whatever characters it holds.  [cur] is the
    token under construction, if one has been started. *)
Fixpoint tokens_go (v : string) (cur : option string) (ps : list piece)
  : list string :=
  match ps with
  | [] => option_list cur
  | Lit a :: ps' =>
      if Ascii.is_space a
      then option_list cur ++ tokens_go v None ps'
      else tokens_go v (Some (default "" cur +:+ String a "")) ps'
  | Placeholder :: ps' =>
      tokens_go v (Some (default "" cur +:+ v)) ps'
  end.

Definition tokens (v : string) (ps : list piece) : list string :=
  tokens_go v None ps.

Record CommandOption : Set := mkCommandOption {
  name : string;
  template : string;
  default_flag : bool    (* the [default] keyword argument *)
}.

(** [CommandOption(name, template)] leaves [default] false. *)
Definition CommandOption_ (name template : string) : CommandOption :=
  mkCommandOption name template false.

Record Executor : Type := mkExecutor {
  bin : list string;
  options : list CommandOption;
  qargs : list string;
  env : gmap string string
}.

Section Rendering.
(** Validated parameter values and their string form, [str(value)]. *)
Context {V : Type} (str : V → string).

(** Modelled from the spec: [CommandOption]'s rendering method is not
    part of the sources at hand; this is the contract of the spec's
    section on CommandOption, case by case: value absent without default
    gives nothing, value absent with default tokenizes the literal
    template, a present value is substituted as one unit, and an empty
    rendered string gives no token. *)
Definition get_cmd_option (opt : CommandOption) (value : option V)
  : list string :=
  match value with
  | None =>
      if default_flag opt then tokens "" (literal (template opt)) else []
  | Some x =>
      let ps := parse (template opt) in
      if String.eqb (substitute (str x) ps) "" then []
      else tokens (str x) ps
  end.

(** Modelled from the spec: [Executor.get_options] is not part of the
    sources at hand; per the spec it walks the options in declaration
    order, looks each name up in [values] and extends the token list
    with what the option renders. *)
Definition get_options (self : Executor) (values : gmap string V)
  : list string :=
  fold_left
    (λ tokens option,
       tokens ++ get_cmd_option option (values !! name option))
    (options self) [].
End Rendering.

Section Jobs.
(** Output descriptors and their path resolution against a working
    directory; resolution consults the file system and is left
    abstract. *)
Context {FileResult : Type} (get_paths : FileResult → string → list string).

Record Job : Type := mkJob {
  job_id : string;
  cwd : string;
  _file_results : list FileResult
}.

(** Modelled from the spec: [Job.file_results] is not part of the
    sources at hand; per the spec it visits the descriptors in order and,
    for each, the paths it resolves to in order, collecting them into one
    flat sequence. *)
Definition file_results (self : Job) : list string :=
  fold_left
    (λ paths file_result,
       fold_left (λ paths path, paths ++ [path])
                 (get_paths file_result (cwd self)) paths)
    (_file_results self) [].

(** [os.path.isabs] on POSIX. *)
Definition isabs (path : string) : bool :=
  match path with
  | String "/"%char _ => true
  | _ => false
  end.
End Jobs.

End Scheduler.

(* ===================================================================== *)
(** * Vocabulary of the statements *)
(* ===================================================================== *)

Import Utils Scheduler.

(** The option list of the executor tests' [test_multiple_arguments]. *)
Definition example_options : list CommandOption :=
  [ mkCommandOption "alpha" "foo" true;
    mkCommandOption "beta" "boo" true;
    CommandOption_ "gamma" "${value}";
    CommandOption_ "delta" "${value}" ].

(** The values the first [k] calls of [next()] give when the countdown has
    [n] items left: [n - 1], [n - 2], ..., [0], and [0] from then on. *)
Definition delays (n : Z) (k : nat) : list Z :=
  map (λ i : nat, Z.max 0 (n - 1 - Z.of_nat i)) (seq 0 k).

(** Whether the character [c] occurs in [s]. *)
Fixpoint has_char (c : Ascii.ascii) (s : string) : bool :=
  match s with
  | "" => false
  | String c' s' => Ascii.eqb c' c || has_char c s'
  end.

(** The keys an include path stands for. *)
Definition path_keys (path : string) : list string :=
  filter_nonempty (py_split "/" path).

(** What an include gives once the file name has been split off: the
    loaded document, or the load error. *)
Definition loaded {Exc : Type} (load : string → yaml + Exc) (fn : string)
  : yaml + include_error Exc :=
  match load fn with
  | inl obj => inl obj
  | inr e => inr (LoadError e)
  end.

(** What holds of a counter built with a non-negative [max_tries] at every
    point of its life: the try count stays within [0, max_tries], and
    [current] is the number of countdown values still to come, at most
    [2 ^ _tries] of them. *)
Definition well_formed (s : BackoffCounter) : Prop :=
  0 ≤ _tries s ≤ max_tries s
  ∧ 0 ≤ current s ≤ 2 ^ _tries s
  ∧ (_counter s = _zero_gen ∧ current s = 0
     ∨ _counter s = it_reversed_range (current s)).

(* ===================================================================== *)
(** * Properties of BackoffCounter *)
(* ===================================================================== *)

(** ** What each method does to the object, in closed form *)

Lemma reset_eq (s : BackoffCounter) :
  reset s = (Returned (), __init__ (max_tries s)).
Proof. reflexivity. Qed.

Lemma next_eq (s : BackoffCounter) :
  next s =
  match _counter s with
  | it_repeat v =>
      (Returned v, mkBackoffCounter (it_repeat v) (_tries s) (max_tries s) v)
  | it_reversed_range n =>
      if 0 <? n
      then (Returned (n - 1),
            mkBackoffCounter (it_reversed_range (n - 1))
                             (_tries s) (max_tries s) (n - 1))
      else (Returned 0, __init__ (max_tries s))
  end.
Proof.
  destruct s as [[v | n] t m c]; [reflexivity |].
  cbv beta iota zeta delta
    [next __next__ try_except mbind M_bind bind next_counter attr iter_next
     _counter].
  destruct (0 <? n); reflexivity.
Qed.

Lemma failure_eq (s : BackoffCounter) :
  failure s =
  let t := Z.min (max_tries s) (_tries s + 1) in
  if t <? 0
  then (Raised ValueError,
        mkBackoffCounter (_counter s) t (max_tries s) (current s))
  else (Returned (),
        mkBackoffCounter (it_reversed_range (Z.shiftl 1 t)) t (max_tries s)
                         (Z.shiftl 1 t)).
Proof.
  destruct s as [it t m c].
  cbv beta iota zeta delta
    [failure mbind M_bind bind attr lift py_lshift set_tries
     _counter _tries max_tries current].
  destruct (Z.min m (t + 1) <? 0); reflexivity.
Qed.

(** No method ever touches [max_tries]. *)
Lemma do_call_max_tries (c : call) (s : BackoffCounter) :
  max_tries (do_call c s) = max_tries s.
Proof.
  destruct c; unfold do_call.
  - rewrite failure_eq; cbv zeta.
    destruct (_ <? 0); reflexivity.
  - rewrite next_eq. destruct (_counter s) as [v | n]; [reflexivity |].
    destruct (0 <? n); reflexivity.
  - reflexivity.
Qed.

Lemma history_max_tries (h : list call) (s : BackoffCounter) :
  max_tries (history h s) = max_tries s.
Proof.
  revert s; induction h as [| c h IH]; intros s; [reflexivity |].
  unfold history in *; simpl. rewrite IH. apply do_call_max_tries.
Qed.

(** ** Runs of [failure()] *)

Lemma failures_S (N : nat) (s : BackoffCounter) :
  0 ≤ _tries s → 0 ≤ max_tries s →
  let T := Z.min (max_tries s) (_tries s + Z.of_nat (S N)) in
  failures (S N) s =
  (Returned (),
   mkBackoffCounter (it_reversed_range (2 ^ T)) T (max_tries s) (2 ^ T)).
Proof.
  revert s; induction N as [| N IH]; intros s Ht Hm T.
  - unfold failures, mbind, M_bind, bind. rewrite failure_eq; cbv zeta.
    replace (Z.min (max_tries s) (_tries s + 1)) with T by (subst T; lia).
    destruct (Z.ltb_spec T 0) as [Hneg | _]; [subst T; lia |].
    unfold ret. rewrite Z.shiftl_1_l. reflexivity.
  - change (failures (S (S N)) s)
      with (let '(r, s') := failure s in
            match r with
            | Returned _ => failures (S N) s'
            | Raised e => (Raised e, s')
            end).
    rewrite failure_eq; cbv zeta.
    destruct (Z.ltb_spec (Z.min (max_tries s) (_tries s + 1)) 0)
      as [Hneg | _]; [lia |].
    rewrite IH; simpl _tries; simpl max_tries; [| lia | lia].
    subst T.
    replace (Z.min (max_tries s)
               (Z.min (max_tries s) (_tries s + 1) + Z.of_nat (S N)))
      with (Z.min (max_tries s) (_tries s + Z.of_nat (S (S N)))) by lia.
    reflexivity.
Qed.

(** ** Runs of [next()] *)

Lemma nexts_zero_gen (k : nat) (m : Z) :
  nexts k (__init__ m) = (Returned (replicate k 0), __init__ m).
Proof.
  induction k as [| k IH]; [reflexivity |].
  change (nexts (S k) (__init__ m))
    with (let '(r, s') := next (__init__ m) in
          match r with
          | Returned v =>
              let '(r', s'') := nexts k s' in
              match r' with
              | Returned vs => (Returned (v :: vs), s'')
              | Raised e => (Raised e, s'')
              end
          | Raised e => (Raised e, s')
          end).
  rewrite next_eq. simpl.
  change (mkBackoffCounter (it_repeat 0) 0 m 0) with (__init__ m).
  rewrite IH. reflexivity.
Qed.

Lemma delays_S (n : Z) (k : nat) :
  delays n (S k) = Z.max 0 (n - 1) :: delays (n - 1) k.
Proof.
  unfold delays. simpl seq. rewrite <- seq_shift. simpl map.
  f_equal; [f_equal; lia |].
  rewrite map_map. apply map_ext; intros i. f_equal; lia.
Qed.

Lemma delays_exhausted (n : Z) (k : nat) :
  n ≤ 0 → delays n k = replicate k 0.
Proof.
  revert n; induction k as [| k IH]; intros n Hn; [reflexivity |].
  rewrite delays_S, IH by lia. simpl. f_equal; lia.
Qed.

Lemma nexts_reversed_range (k : nat) (n t m c : Z) :
  nexts k (mkBackoffCounter (it_reversed_range n) t m c) =
  (Returned (delays n k),
   if decide (k = 0%nat) then mkBackoffCounter (it_reversed_range n) t m c
   else if decide (Z.of_nat k ≤ n)
        then mkBackoffCounter (it_reversed_range (n - Z.of_nat k)) t m
                              (n - Z.of_nat k)
        else __init__ m).
Proof.
  revert n c; induction k as [| k IH]; intros n c; [reflexivity |].
  change (nexts (S k) ?s)
    with (let '(r, s') := next s in
          match r with
          | Returned v =>
              let '(r', s'') := nexts k s' in
              match r' with
              | Returned vs => (Returned (v :: vs), s'')
              | Raised e => (Raised e, s'')
              end
          | Raised e => (Raised e, s')
          end).
  rewrite next_eq; simpl _counter; simpl _tries; simpl max_tries.
  rewrite delays_S.
  destruct (Z.ltb_spec 0 n) as [Hpos | Hnpos].
  - rewrite IH. rewrite Z.max_r by lia.
    f_equal.
    destruct (decide (S k = 0%nat)) as [| _]; [lia |].
    destruct (decide (k = 0%nat)) as [-> | Hk].
    + destruct (decide (Z.of_nat 1 ≤ n)); [| lia].
      f_equal; f_equal; lia.
    + destruct (decide (Z.of_nat k ≤ n - 1)),
               (decide (Z.of_nat (S k) ≤ n)); try lia; [| reflexivity].
      f_equal; [f_equal |]; lia.
  - rewrite nexts_zero_gen, delays_exhausted by lia.
    rewrite Z.max_l by lia.
    destruct (decide (S k = 0%nat)) as [| _]; [lia |].
    destruct (decide (Z.of_nat (S k) ≤ n)); [lia | reflexivity].
Qed.

(** ** The claims about BackoffCounter *)

(** C1 (as amended).  Take a counter whose try count is 0, as it is after
    construction or after a reset, and let [1 <= N <= max_tries].  The [N]
    consecutive [failure()] calls all return, they leave [current = 2^N],
    and the [next()] calls that follow return [2^N - 1], [2^N - 2], ...,
    [0] and then [0] for as long as no [failure()] intervenes. *)
Theorem failures_then_countdown (N : nat) (s : BackoffCounter) :
  (1 ≤ N)%nat → Z.of_nat N ≤ max_tries s → _tries s = 0 →
  fst (failures N s) = Returned ()
  ∧ current (snd (failures N s)) = 2 ^ Z.of_nat N
  ∧ ∀ k : nat,
      fst (nexts k (snd (failures N s))) = Returned (delays (2 ^ Z.of_nat N) k).
Proof.
  intros HN Hmax Ht.
  destruct N as [| N]; [lia |].
  rewrite failures_S by lia; cbv zeta.
  rewrite Ht, Z.add_0_l, Z.min_r by lia.
  cbn [fst snd current].
  repeat split.
  intros k. rewrite nexts_reversed_range. reflexivity.
Qed.

Lemma failures_then_countdown_witness :
  (1 ≤ 2)%nat ∧ Z.of_nat 2 ≤ max_tries (__init__ 64)
  ∧ current (snd (failures 2 (__init__ 64))) = 4
  ∧ fst (nexts 6 (snd (failures 2 (__init__ 64))))
    = Returned [3; 2; 1; 0; 0; 0].
Proof.
  pose proof (failures_then_countdown 2 (__init__ 64)) as H.
  split; [lia |]. split; [simpl; lia |].
  destruct H as (_ & Hc & Hk); [lia | simpl; lia | reflexivity |].
  split; [exact Hc | exact (Hk 6%nat)].
Defined.

(** C1, as the claim words it, fails at [N = 0]: a fresh counter that has
    seen no [failure()] has [current = 0], not [2^0]. *)
Lemma current_without_failure_counterexample :
  Z.of_nat 0 ≤ max_tries (__init__ 64)
  ∧ current (snd (failures 0 (__init__ 64))) = 0
  ∧ current (snd (failures 0 (__init__ 64))) ≠ 2 ^ Z.of_nat 0.
Proof. repeat split; [simpl; lia | simpl; lia]. Qed.

(** C2 (as amended).  Once [failure()] calls have saturated the try count
    at [max_tries], [give_up] is true and stays true, the try count
    untouched, across the [2^max_tries] calls of [next()] that consume the
    countdown.  The call after those finds the countdown exhausted and
    resets the counter, try count included: from then on [give_up] holds
    only for [max_tries = 0]. *)
Theorem give_up_through_countdown (N k : nat) (s0 : BackoffCounter) :
  (1 ≤ N)%nat → 0 ≤ _tries s0 → 0 ≤ max_tries s0 →
  max_tries s0 ≤ _tries s0 + Z.of_nat N →
  let s := snd (failures N s0) in
  let sk := snd (nexts k s) in
  max_tries s = max_tries s0 ∧ _tries s = max_tries s ∧ give_up_ s = true
  ∧ (Z.of_nat k ≤ 2 ^ max_tries s →
     _tries sk = _tries s ∧ give_up_ sk = true)
  ∧ (2 ^ max_tries s < Z.of_nat k →
     _tries sk = 0 ∧ give_up_ sk = (max_tries s =? 0)).
Proof.
  intros HN Ht Hm Hsat s sk. subst sk s.
  destruct N as [| N]; [lia |].
  rewrite failures_S by lia; cbv zeta.
  rewrite Z.min_l by lia.
  cbn [snd]. rewrite nexts_reversed_range.
  cbn [snd max_tries _tries].
  assert (Hg : ∀ it c, give_up_ (mkBackoffCounter it (max_tries s0)
                                  (max_tries s0) c) = true).
  { intros it c. unfold give_up_; simpl. rewrite Z.geb_leb. lia. }
  assert (0 < 2 ^ max_tries s0) by (apply Z.pow_pos_nonneg; lia).
  split; [reflexivity |]. split; [reflexivity |]. split; [apply Hg |].
  split; intros Hk.
  - destruct (decide (k = 0%nat)); [split; [reflexivity | apply Hg] |].
    destruct (decide (Z.of_nat k ≤ 2 ^ max_tries s0)); [| lia].
    split; [reflexivity | apply Hg].
  - destruct (decide (k = 0%nat)); [lia |].
    destruct (decide (Z.of_nat k ≤ 2 ^ max_tries s0)); [lia |].
    split; [reflexivity |].
    unfold give_up_; simpl.
    destruct (Z.eqb_spec (max_tries s0) 0) as [-> | Hne]; [reflexivity |].
    rewrite Z.geb_leb. apply Z.leb_gt. lia.
Qed.

Lemma give_up_through_countdown_witness :
  (1 ≤ 1)%nat ∧ 0 ≤ _tries (__init__ 1) ∧ 0 ≤ max_tries (__init__ 1)
  ∧ max_tries (__init__ 1) ≤ _tries (__init__ 1) + Z.of_nat 1
  ∧ give_up_ (snd (failures 1 (__init__ 1))) = true
  ∧ give_up_ (snd (nexts 2 (snd (failures 1 (__init__ 1))))) = true.
Proof.
  pose proof (give_up_through_countdown 1 2 (__init__ 1)) as H.
  cbv zeta in H.
  repeat (split; [simpl; lia |]).
  destruct H as (_ & _ & Hg & Hk & _); [lia | simpl; lia .. |].
  split; [exact Hg |]. apply Hk. simpl; lia.
Defined.

(** C2, as the claim words it, fails: with [max_tries = 1], one
    [failure()] saturates the try count, and the third [next()] after it
    resets the counter, so [give_up] is false again although nobody
    called [reset()]. *)
Lemma give_up_lost_by_next_counterexample :
  let s := snd (failures 1 (__init__ 1)) in
  _tries s = max_tries s
  ∧ give_up_ s = true
  ∧ fst (nexts 3 s) = Returned [1; 0; 0]
  ∧ _tries (snd (nexts 3 s)) = 0
  ∧ give_up_ (snd (nexts 3 s)) = false.
Proof. repeat split. Qed.

(** C6.  With [max_tries = 64], [give_up] is false after 63 consecutive
    [failure()] calls and true after 64; the try count stays at 64 and
    [give_up] stays true however many more [failure()] calls follow. *)
Theorem give_up_after_64_failures :
  give_up_ (snd (failures 63 (__init__ 64))) = false
  ∧ give_up_ (snd (failures 64 (__init__ 64))) = true
  ∧ ∀ k : nat,
      fst (failures (64 + k) (__init__ 64)) = Returned ()
      ∧ _tries (snd (failures (64 + k) (__init__ 64))) = 64
      ∧ give_up_ (snd (failures (64 + k) (__init__ 64))) = true.
Proof.
  split; [vm_compute; reflexivity |].
  split; [vm_compute; reflexivity |].
  intros k. change (64 + k)%nat with (S (63 + k)).
  rewrite failures_S by (simpl; lia); cbv zeta.
  cbn [fst snd _tries max_tries __init__ give_up_].
  rewrite Z.min_l by lia.
  repeat split.
Qed.

(** C7.  Whatever calls the counter has seen since its construction with
    [max_tries = m], [reset()] returns and leaves it in the very state of
    a fresh [BackoffCounter(m)]: try count 0, [current] 0, and every
    [next()] from there returns 0 and changes nothing. *)
Theorem reset_restores_fresh (m : Z) (h : list call) :
  reset (history h (__init__ m)) = (Returned (), __init__ m)
  ∧ _tries (snd (reset (history h (__init__ m)))) = 0
  ∧ current (snd (reset (history h (__init__ m)))) = 0
  ∧ ∀ k : nat,
      nexts k (snd (reset (history h (__init__ m))))
      = (Returned (replicate k 0), __init__ m).
Proof.
  rewrite reset_eq, history_max_tries.
  cbn [snd max_tries _tries current __init__].
  repeat split. intros k. apply nexts_zero_gen.
Qed.

(** C8.  With [max_tries = 0], the first [failure()] call returns and
    [give_up] is true after it. *)
Theorem give_up_after_first_failure_max_tries_0 :
  fst (failure (__init__ 0)) = Returned ()
  ∧ give_up_ (snd (failure (__init__ 0))) = true.
Proof. split; reflexivity. Qed.

(** C10.  With [max_tries = 0], [give_up] is true right after
    construction: the try count starts at 0 and [give_up] tests
    [try count >= max_tries]. *)
Theorem give_up_at_construction_max_tries_0 :
  _tries (__init__ 0) = 0
  ∧ give_up_ (__init__ 0) = true
  ∧ ∀ s : BackoffCounter, give_up_ s = true ↔ max_tries s ≤ _tries s.
Proof.
  split; [reflexivity |]. split; [reflexivity |].
  intros s. unfold give_up_. rewrite Z.geb_leb, Z.leb_le. lia.
Qed.

(* ===================================================================== *)
(** * Properties of JobStatus *)
(* ===================================================================== *)

(** C3.  [is_finished] is true exactly on REJECTED, COMPLETED,
    INTERRUPTED, DELETED, FAILED, ERROR and UNKNOWN, false exactly on
    PENDING, ACCEPTED, QUEUED and RUNNING, and these eleven members are
    the whole enumeration. *)
Theorem is_finished_exactly (s : JobStatus) :
  (is_finished s = true ↔
     s ∈ [REJECTED; COMPLETED; INTERRUPTED; DELETED; FAILED; ERROR; UNKNOWN])
  ∧ (is_finished s = false ↔ s ∈ [PENDING; ACCEPTED; QUEUED; RUNNING])
  ∧ s ∈ all_statuses
  ∧ length all_statuses = 11%nat
  ∧ NoDup all_statuses.
Proof.
  split; [| split; [| split; [| split]]].
  - destruct s; split; intros H; try reflexivity;
      try (vm_compute in H; discriminate H);
      try (rewrite !elem_of_cons, elem_of_nil in H; intuition discriminate);
      rewrite !elem_of_cons; tauto.
  - destruct s; split; intros H; try reflexivity;
      try (vm_compute in H; discriminate H);
      try (rewrite !elem_of_cons, elem_of_nil in H; intuition discriminate);
      rewrite !elem_of_cons; tauto.
  - unfold all_statuses. rewrite !elem_of_cons. destruct s; tauto.
  - reflexivity.
  - unfold all_statuses.
    repeat (apply NoDup_cons; split;
            [rewrite ?elem_of_cons, elem_of_nil; intuition discriminate |]).
    apply NoDup_nil_2.
Qed.

(* ===================================================================== *)
(** * Properties of command rendering *)
(* ===================================================================== *)

(** ** Strings *)

Lemma string_app_nil_r (s : string) : s +:+ "" = s.
Proof.
  induction s as [| a s IH]; [reflexivity |].
  change (String a s +:+ "") with (String a (s +:+ "")). by rewrite IH.
Qed.

Lemma string_app_assoc (s1 s2 s3 : string) :
  (s1 +:+ s2) +:+ s3 = s1 +:+ s2 +:+ s3.
Proof.
  induction s1 as [| a s1 IH]; [reflexivity |].
  change (String a s1 +:+ s2) with (String a (s1 +:+ s2)).
  change (String a (s1 +:+ s2) +:+ s3) with (String a ((s1 +:+ s2) +:+ s3)).
  by rewrite IH.
Qed.

Lemma string_app_nonempty_l (s1 s2 : string) : s1 ≠ "" → s1 +:+ s2 ≠ "".
Proof.
  destruct s1 as [| a s1]; [done |]. intros _.
  change (String a s1 +:+ s2) with (String a (s1 +:+ s2)). discriminate.
Qed.

(** ** Templates *)

Lemma parse_step (c1 c2 c3 c4 c5 c6 c7 c8 : Ascii.ascii) (rest : string) :
  parse (String c1 (String c2 (String c3 (String c4 (String c5
          (String c6 (String c7 (String c8 rest))))))))
  = if String.eqb
         (String c1 (String c2 (String c3 (String c4 (String c5
            (String c6 (String c7 (String c8 ""))))))))
         placeholder
    then Placeholder :: parse rest
    else Lit c1 :: parse (String c2 (String c3 (String c4 (String c5
                            (String c6 (String c7 (String c8 rest))))))).
Proof. reflexivity. Qed.

Lemma parse_String (c : Ascii.ascii) (s : string) :
  (∃ rest, parse (String c s) = Placeholder :: parse rest)
  ∨ parse (String c s) = Lit c :: parse s.
Proof.
  destruct s as [| c2 [| c3 [| c4 [| c5 [| c6 [| c7 [| c8 rest]]]]]]];
    try (right; reflexivity).
  rewrite parse_step.
  destruct (String.eqb _ placeholder); [left; by exists rest | by right].
Qed.

(** A template in which the placeholder occurs parses to pieces among
    which [Placeholder] occurs. *)
Lemma parse_placeholder (pre post : string) :
  ∃ ps1 ps2, parse (pre +:+ placeholder +:+ post) = ps1 ++ Placeholder :: ps2.
Proof.
  induction pre as [| c pre (ps1 & ps2 & IH)].
  - exists [], (parse post). reflexivity.
  - change (String c pre +:+ placeholder +:+ post)
      with (String c (pre +:+ placeholder +:+ post)).
    destruct (parse_String c (pre +:+ placeholder +:+ post))
      as [[rest ->] | ->].
    + by exists [], (parse rest).
    + exists (Lit c :: ps1), ps2. by rewrite IH.
Qed.

Lemma substitute_nonempty (v : string) (ps1 ps2 : list piece) :
  v ≠ "" → substitute v (ps1 ++ Placeholder :: ps2) ≠ "".
Proof.
  intros Hv. destruct ps1 as [| [a |] ps1]; simpl.
  - by apply string_app_nonempty_l.
  - discriminate.
  - by apply string_app_nonempty_l.
Qed.

(** ** Tokens *)

(** A token under construction only grows until it is closed. *)
Lemma tokens_go_started (v cur : string) (ps : list piece) :
  ∃ b after, tokens_go v (Some cur) ps = (cur +:+ b) :: after.
Proof.
  revert cur; induction ps as [| [a |] ps IH]; intros cur; simpl.
  - exists "", []. by rewrite string_app_nil_r.
  - destruct (Ascii.is_space a).
    + exists "", (tokens_go v None ps). by rewrite string_app_nil_r.
    + destruct (IH (cur +:+ String a "")) as (b & after & ->).
      exists (String a "" +:+ b), after. by rewrite string_app_assoc.
  - destruct (IH (cur +:+ v)) as (b & after & ->).
    exists (v +:+ b), after. by rewrite string_app_assoc.
Qed.

(** The substituted value ends up whole inside one token. *)
Lemma tokens_go_placeholder (v : string) (cur : option string)
    (ps1 ps2 : list piece) :
  ∃ before a b after,
    tokens_go v cur (ps1 ++ Placeholder :: ps2)
    = before ++ [a +:+ v +:+ b] ++ after.
Proof.
  revert cur; induction ps1 as [| [c |] ps1 IH]; intros cur; simpl.
  - destruct (tokens_go_started v (default "" cur +:+ v) ps2)
      as (b & after & ->).
    exists [], (default "" cur), b, after. by rewrite string_app_assoc.
  - destruct (Ascii.is_space c).
    + destruct (IH None) as (before & a & b & after & ->).
      by exists (option_list cur ++ before), a, b, after; rewrite <- app_assoc.
    + apply IH.
  - apply IH.
Qed.

(** ** The claim about CommandOption *)

(** C4.  When the template contains the placeholder and a value is
    present, the string form of the value goes whole into one token of the
    rendering, whatever whitespace it holds.  In particular a value whose
    string form is [foo bar] renders to the single token [foo bar] under
    the template [${value}] and to the single token [-a=foo bar] under the
    template [-a=${value}]. *)
Theorem value_rendered_as_one_token {V : Type} (str : V → string)
    (opt : CommandOption) (x : V) :
  (∀ pre post : string,
     template opt = pre +:+ placeholder +:+ post → str x ≠ "" →
     ∃ before a b after,
       get_cmd_option str opt (Some x)
       = before ++ [a +:+ str x +:+ b] ++ after)
  ∧ (template opt = "${value}" → str x = "foo bar" →
     get_cmd_option str opt (Some x) = ["foo bar"])
  ∧ (template opt = "-a=${value}" → str x = "foo bar" →
     get_cmd_option str opt (Some x) = ["-a=foo bar"]).
Proof.
  split; [| split].
  - intros pre post Ht Hx. unfold get_cmd_option. rewrite Ht.
    destruct (parse_placeholder pre post) as (ps1 & ps2 & ->).
    cbv zeta.
    destruct (String.eqb_spec (substitute (str x) (ps1 ++ Placeholder :: ps2)) "")
      as [Hempty | _].
    + by apply substitute_nonempty in Hempty.
    + apply tokens_go_placeholder.
  - intros Ht Hx. unfold get_cmd_option. rewrite Ht, Hx. reflexivity.
  - intros Ht Hx. unfold get_cmd_option. rewrite Ht, Hx. reflexivity.
Qed.

Lemma value_rendered_as_one_token_witness :
  template (CommandOption_ "alpha" "-a=${value}") = "-a=${value}"
  ∧ id "foo bar" = "foo bar"
  ∧ get_cmd_option id (CommandOption_ "alpha" "-a=${value}") (Some "foo bar")
    = ["-a=foo bar"].
Proof.
  split; [reflexivity |]. split; [reflexivity |].
  apply (value_rendered_as_one_token id
           (CommandOption_ "alpha" "-a=${value}") "foo bar");
    reflexivity.
Defined.

(** ** The claim about Executor.get_options *)

Lemma get_options_from {V : Type} (str : V → string)
    (values : gmap string V) (opts : list CommandOption) (acc : list string) :
  fold_left
    (λ tokens option,
       tokens ++ get_cmd_option str option (values !! name option))
    opts acc
  = acc ++ concat (map (λ o, get_cmd_option str o (values !! name o)) opts).
Proof.
  revert acc; induction opts as [| o opts IH]; intros acc; simpl.
  - by rewrite app_nil_r.
  - by rewrite IH, app_assoc.
Qed.

(** C5.  [get_options] is the concatenation, in declaration order, of what
    each option renders from its own entry of [values] (no entry: absent),
    and the order in which the entries of [values] were put in does not
    matter.  With the four options alpha, beta, gamma, delta of the test
    and entries for gamma ([goo]) and delta ([doo doom]), in either order,
    the result is [foo; boo; goo; doo doom]. *)
Theorem get_options_in_declaration_order {V : Type} (str : V → string)
    (self : Executor) (items items' : list (string * V)) :
  NoDup items.*1 → items' ≡ₚ items →
  get_options str self (list_to_map items)
  = concat (map (λ o, get_cmd_option str o
                        ((list_to_map items : gmap string V) !! name o))
                (options self))
  ∧ get_options str self (list_to_map items')
    = get_options str self (list_to_map items)
  ∧ (∀ g d : V,
       options self = example_options →
       items = [("gamma", g); ("delta", d)] →
       str g = "goo" → str d = "doo doom" →
       get_options str self (list_to_map items')
       = ["foo"; "boo"; "goo"; "doo doom"]).
Proof.
  intros Hnodup Hperm.
  assert (Hmap : (list_to_map items' : gmap string V) = list_to_map items).
  { symmetry. by apply list_to_map_proper. }
  split; [| split].
  - unfold get_options. by rewrite get_options_from.
  - by rewrite Hmap.
  - intros g d Hopts -> Hg Hd. rewrite Hmap.
    unfold get_options. rewrite get_options_from, Hopts.
    pose (values := (list_to_map [("gamma", g); ("delta", d)]
                     : gmap string V)).
    assert (Halpha : values !! "alpha" = None) by (by vm_compute).
    assert (Hbeta : values !! "beta" = None) by (by vm_compute).
    assert (Hgamma : values !! "gamma" = Some g) by (by vm_compute).
    assert (Hdelta : values !! "delta" = Some d) by (by vm_compute).
    fold values. clearbody values.
    unfold example_options. cbn [map name CommandOption_].
    rewrite Halpha, Hbeta, Hgamma, Hdelta.
    unfold get_cmd_option. cbn [template default_flag].
    rewrite Hg, Hd. reflexivity.
Qed.

Lemma get_options_in_declaration_order_witness :
  NoDup [("gamma", "goo"); ("delta", "doo doom")].*1
  ∧ [("delta", "doo doom"); ("gamma", "goo")]
    ≡ₚ [("gamma", "goo"); ("delta", "doo doom")]
  ∧ get_options id (mkExecutor [] example_options [] ∅)
      (list_to_map [("delta", "doo doom"); ("gamma", "goo")])
    = ["foo"; "boo"; "goo"; "doo doom"].
Proof.
  assert (Hnodup : NoDup [("gamma", "goo"); ("delta", "doo doom")].*1).
  { apply NoDup_cons_2; [| apply NoDup_singleton].
    intros H. apply list_elem_of_singleton in H. discriminate H. }
  assert (Hperm : [("delta", "doo doom"); ("gamma", "goo")]
                  ≡ₚ [("gamma", "goo"); ("delta", "doo doom")])
    by apply perm_swap.
  split; [exact Hnodup |]. split; [exact Hperm |].
  destruct (get_options_in_declaration_order id
              (mkExecutor [] example_options [] ∅) _ _ Hnodup Hperm)
    as (_ & _ & Hexample).
  apply (Hexample "goo" "doo doom"); reflexivity.
Defined.

(* ===================================================================== *)
(** * Properties of Job *)
(* ===================================================================== *)

Lemma extend_paths (paths more : list string) :
  fold_left (λ paths path, paths ++ [path]) more paths = paths ++ more.
Proof.
  revert paths; induction more as [| p more IH]; intros paths; simpl.
  - by rewrite app_nil_r.
  - by rewrite IH, <- app_assoc.
Qed.

Lemma file_results_from {FileResult : Type}
    (get_paths : FileResult → string → list string) (dir : string)
    (frs : list FileResult) (acc : list string) :
  fold_left
    (λ paths file_result,
       fold_left (λ paths path, paths ++ [path])
                 (get_paths file_result dir) paths)
    frs acc
  = acc ++ concat (map (λ f, get_paths f dir) frs).
Proof.
  revert acc; induction frs as [| f frs IH]; intros acc; simpl.
  - by rewrite app_nil_r.
  - by rewrite IH, extend_paths, app_assoc.
Qed.

(** C9.  [file_results] is [f1.get_paths(cwd) ++ ... ++ fk.get_paths(cwd)]
    for the job's descriptors [f1, ..., fk]: descriptor order first, then
    the order of each descriptor's own paths, in one flat list; and the
    paths in it are absolute as soon as the descriptors resolve to
    absolute paths. *)
Theorem file_results_is_concatenation {FileResult : Type}
    (get_paths : FileResult → string → list string) (self : Job) :
  file_results get_paths self
  = concat (map (λ f, get_paths f (cwd self)) (_file_results self))
  ∧ ((∀ f, f ∈ _file_results self →
           Forall (λ p, isabs p = true) (get_paths f (cwd self))) →
     Forall (λ p, isabs p = true) (file_results get_paths self)).
Proof.
  assert (Heq : file_results get_paths self
                = concat (map (λ f, get_paths f (cwd self))
                              (_file_results self))).
  { unfold file_results. by rewrite file_results_from. }
  split; [exact Heq |].
  intros Habs. rewrite Heq. apply Forall_concat, Forall_forall.
  intros paths Hin. apply list_elem_of_In, in_map_iff in Hin as (f & <- & Hf).
  apply Habs. by apply list_elem_of_In.
Qed.

Lemma file_results_is_concatenation_witness :
  file_results (λ (f : list string) (_ : string), f)
    (mkJob "1" "/work" [["/foo"; "/bar"]; ["/qux"]])
  = ["/foo"; "/bar"; "/qux"]
  ∧ Forall (λ p, isabs p = true)
      (file_results (λ (f : list string) (_ : string), f)
         (mkJob "1" "/work" [["/foo"; "/bar"]; ["/qux"]])).
Proof.
  pose proof (file_results_is_concatenation
                (λ (f : list string) (_ : string), f)
                (mkJob "1" "/work" [["/foo"; "/bar"]; ["/qux"]]))
    as [Heq Habs].
  split; [exact Heq |].
  apply Habs. intros f Hf. simpl in Hf.
  apply elem_of_cons in Hf as [-> | Hf]; [by repeat constructor |].
  apply list_elem_of_singleton in Hf as ->. by repeat constructor.
Defined.

(* ===================================================================== *)
(** * Further properties of BackoffCounter *)
(* ===================================================================== *)

Lemma history_cons (c : call) (h : list call) (s : BackoffCounter) :
  history (c :: h) s = history h (do_call c s).
Proof. reflexivity. Qed.

Lemma history_app (h1 h2 : list call) (s : BackoffCounter) :
  history (h1 ++ h2) s = history h2 (history h1 s).
Proof. unfold history. apply fold_left_app. Qed.

Lemma history_snoc (h : list call) (c : call) (s : BackoffCounter) :
  history (h ++ [c]) s = do_call c (history h s).
Proof. by rewrite history_app. Qed.

Lemma next_fst (s : BackoffCounter) : ∃ v : Z, fst (next s) = Returned v.
Proof.
  rewrite next_eq. destruct (_counter s) as [v | n]; [by exists v |].
  destruct (0 <? n); [by exists (n - 1) | by exists 0].
Qed.

Lemma failure_ok (s : BackoffCounter) :
  0 ≤ Z.min (max_tries s) (_tries s + 1) →
  failure s
  = (Returned (),
     mkBackoffCounter
       (it_reversed_range (2 ^ Z.min (max_tries s) (_tries s + 1)))
       (Z.min (max_tries s) (_tries s + 1)) (max_tries s)
       (2 ^ Z.min (max_tries s) (_tries s + 1))).
Proof.
  intros H. rewrite failure_eq; cbv zeta. rewrite Z.shiftl_1_l.
  destruct (Z.ltb_spec (Z.min (max_tries s) (_tries s + 1)) 0); [lia | done].
Qed.

Lemma failure_err (s : BackoffCounter) :
  Z.min (max_tries s) (_tries s + 1) < 0 →
  failure s
  = (Raised ValueError,
     mkBackoffCounter (_counter s) (Z.min (max_tries s) (_tries s + 1))
                      (max_tries s) (current s)).
Proof.
  intros H. rewrite failure_eq; cbv zeta.
  destruct (Z.ltb_spec (Z.min (max_tries s) (_tries s + 1)) 0); [done | lia].
Qed.

(** [next()] catches the only exception its body can raise: it returns
    from every state, what it returns is the new [current], and it leaves
    [max_tries] alone. *)
Theorem next_never_raises (s : BackoffCounter) :
  ∃ v : Z,
    fst (next s) = Returned v
    ∧ current (snd (next s)) = v
    ∧ max_tries (snd (next s)) = max_tries s.
Proof.
  rewrite next_eq. destruct (_counter s) as [v | n].
  - by exists v.
  - destruct (0 <? n); [by exists (n - 1) | by exists 0].
Qed.

Lemma history_next_calls (k : nat) (s : BackoffCounter) :
  history (replicate k CallNext) s = snd (nexts k s).
Proof.
  revert s; induction k as [| k IH]; intros s; [reflexivity |].
  change (replicate (S k) CallNext) with (CallNext :: replicate k CallNext).
  rewrite history_cons, IH. unfold do_call.
  change (nexts (S k) s)
    with (let '(r, s') := next s in
          match r with
          | Returned v =>
              let '(r', s'') := nexts k s' in
              match r' with
              | Returned vs => (Returned (v :: vs), s'')
              | Raised e => (Raised e, s'')
              end
          | Raised e => (Raised e, s')
          end).
  destruct (next_fst s) as (v & Hv).
  destruct (next s) as [r s']; simpl in Hv; subst r; simpl.
  by destruct (nexts k s') as [[vs | e] s''].
Qed.

(** [failure()] raises exactly when the try count it has just stored is
    negative.  It then leaves the countdown and [current] as they were,
    but the try count is already overwritten.  When it returns, the
    object depends on the old try count and [max_tries] only. *)
Theorem failure_raises_iff (s : BackoffCounter) :
  (fst (failure s) = Raised ValueError
   ↔ Z.min (max_tries s) (_tries s + 1) < 0)
  ∧ (fst (failure s) = Returned ()
     ↔ 0 ≤ Z.min (max_tries s) (_tries s + 1))
  ∧ (Z.min (max_tries s) (_tries s + 1) < 0 →
     snd (failure s)
     = mkBackoffCounter (_counter s) (Z.min (max_tries s) (_tries s + 1))
                        (max_tries s) (current s))
  ∧ (0 ≤ Z.min (max_tries s) (_tries s + 1) →
     snd (failure s)
     = mkBackoffCounter
         (it_reversed_range (2 ^ Z.min (max_tries s) (_tries s + 1)))
         (Z.min (max_tries s) (_tries s + 1)) (max_tries s)
         (2 ^ Z.min (max_tries s) (_tries s + 1))).
Proof.
  destruct (Z.lt_ge_cases (Z.min (max_tries s) (_tries s + 1)) 0) as [H | H].
  - rewrite failure_err by done. cbn [fst snd].
    repeat split; intros; try done; lia.
  - rewrite failure_ok by done. cbn [fst snd].
    repeat split; intros; try done; lia.
Qed.

Lemma failure_raises_iff_witness :
  Z.min (max_tries (__init__ (-1))) (_tries (__init__ (-1)) + 1) < 0
  ∧ fst (failure (__init__ (-1))) = Raised ValueError
  ∧ snd (failure (__init__ (-1))) = mkBackoffCounter _zero_gen (-1) (-1) 0.
Proof.
  destruct (failure_raises_iff (__init__ (-1))) as (Hr & _ & Hs & _).
  assert (H : Z.min (max_tries (__init__ (-1)))
                    (_tries (__init__ (-1)) + 1) < 0) by (simpl; lia).
  split; [exact H |]. split; [by apply Hr | by apply Hs].
Defined.

(** A counter built with a negative [max_tries] can never record a
    failure: whatever has been called before, [failure()] raises
    ValueError; built with a non-negative one, [failure()] never raises. *)
Theorem failure_raises_for_negative_max_tries (m : Z) (h : list call) :
  (m < 0 → fst (failure (history h (__init__ m))) = Raised ValueError)
  ∧ (0 ≤ m → fst (failure (history h (__init__ m))) = Returned ()).
Proof.
  pose proof (history_max_tries h (__init__ m)) as Hmax; simpl in Hmax.
  split; intros Hm.
  - rewrite failure_err by lia. done.
  - assert (0 ≤ _tries (history h (__init__ m))) as Ht.
    { induction h as [| c h IH] using rev_ind; [done |].
      pose proof (history_max_tries h (__init__ m)) as Hmax'.
      simpl in Hmax'.
      rewrite history_snoc. destruct c; unfold do_call.
      - rewrite failure_ok; simpl; lia.
      - rewrite next_eq. destruct (_counter _) as [v | n]; [by apply IH |].
        destruct (0 <? n); [by apply IH | done].
      - done. }
    rewrite failure_ok by lia. done.
Qed.

Lemma failure_raises_for_negative_max_tries_witness :
  -1 < 0
  ∧ fst (failure (history [CallNext; CallReset] (__init__ (-1))))
    = Raised ValueError.
Proof.
  split; [lia |].
  apply (failure_raises_for_negative_max_tries (-1) [CallNext; CallReset]).
  lia.
Defined.

Lemma do_call_well_formed (c : call) (s : BackoffCounter) :
  well_formed s → well_formed (do_call c s).
Proof.
  intros (Ht & Hc & Hit). destruct c; unfold do_call.
  - rewrite failure_ok by lia.
    unfold well_formed; simpl. repeat split; try lia. by right.
  - rewrite next_eq. destruct Hit as [[-> Hcur] | ->].
    + unfold well_formed, _zero_gen; simpl. repeat split; try lia. by left.
    + destruct (Z.ltb_spec 0 (current s)).
      * unfold well_formed; simpl. repeat split; try lia. by right.
      * unfold well_formed; simpl. repeat split; try lia. by left.
  - rewrite reset_eq. unfold well_formed; simpl.
    repeat split; try lia. by left.
Qed.

Lemma well_formed_history (m : Z) (h : list call) :
  0 ≤ m → well_formed (history h (__init__ m)).
Proof.
  intros Hm. induction h as [| c h IH] using rev_ind.
  - unfold well_formed; simpl. repeat split; try lia. by left.
  - rewrite history_snoc. by apply do_call_well_formed.
Qed.

(** Whatever is called on a counter built with a non-negative
    [max_tries], the try count stays within [0, max_tries] and [current]
    is the number of countdown values still to come, never more than
    [2 ^ _tries]. *)
Theorem history_well_formed (m : Z) (h : list call) :
  0 ≤ m → well_formed (history h (__init__ m)).
Proof. apply well_formed_history. Qed.

Lemma history_well_formed_witness :
  0 ≤ 3
  ∧ well_formed (history [CallFailure; CallNext; CallFailure] (__init__ 3)).
Proof.
  split; [lia |].
  apply (history_well_formed 3 [CallFailure; CallNext; CallFailure]). lia.
Defined.

(** The delay [next()] hands out is capped: on a counter built with
    [max_tries = m >= 0] it lies in [0, 2^m - 1], whatever was called
    before. *)
Theorem next_delay_bounded (m : Z) (h : list call) :
  0 ≤ m →
  ∃ v : Z,
    fst (next (history h (__init__ m))) = Returned v ∧ 0 ≤ v < 2 ^ m.
Proof.
  intros Hm.
  destruct (well_formed_history m h Hm) as (Ht & Hc & Hit).
  pose proof (history_max_tries h (__init__ m)) as Hmax; simpl in Hmax.
  assert (Hpow : 2 ^ _tries (history h (__init__ m)) ≤ 2 ^ m)
    by (apply Z.pow_le_mono_r; lia).
  assert (0 < 2 ^ m) by (apply Z.pow_pos_nonneg; lia).
  rewrite next_eq. destruct Hit as [[-> _] | ->].
  - exists 0. split; [done | lia].
  - destruct (Z.ltb_spec 0 (current (history h (__init__ m)))).
    + eexists. split; [done | lia].
    + exists 0. split; [done | lia].
Qed.

Lemma next_delay_bounded_witness :
  0 ≤ 2
  ∧ ∃ v : Z,
      fst (next (history [CallFailure; CallFailure; CallFailure]
                   (__init__ 2)))
      = Returned v
      ∧ 0 ≤ v < 2 ^ 2.
Proof.
  split; [lia |].
  apply (next_delay_bounded 2 [CallFailure; CallFailure; CallFailure]). lia.
Defined.

(** On a fresh counter with a non-negative [max_tries], [give_up] is true
    after [N] consecutive [failure()] calls exactly when [N] has reached
    [max_tries]. *)
Theorem give_up_iff_enough_failures (m : Z) (N : nat) :
  0 ≤ m →
  give_up_ (snd (failures N (__init__ m))) = true ↔ m ≤ Z.of_nat N.
Proof.
  intros Hm. destruct N as [| N].
  - unfold give_up_; simpl. rewrite Z.geb_leb, Z.leb_le. lia.
  - rewrite failures_S by (simpl; lia); cbv zeta.
    unfold give_up_; cbn [snd _tries max_tries __init__].
    rewrite Z.geb_leb, Z.leb_le. lia.
Qed.

Lemma give_up_iff_enough_failures_witness :
  0 ≤ 3
  ∧ give_up_ (snd (failures 3 (__init__ 3))) = true
  ∧ ¬ give_up_ (snd (failures 2 (__init__ 3))) = true.
Proof.
  split; [lia |]. split.
  - apply (give_up_iff_enough_failures 3 3); simpl; lia.
  - intros H. apply (give_up_iff_enough_failures 3 2) in H; simpl in H; lia.
Defined.

(** [next()] calls between two failures do not hold the growth of the
    delay back as long as they stay within the countdown: the second
    [failure()] then leaves the counter as two failures in a row would.
    Once they outlast the countdown the counter has reset itself, and the
    second [failure()] starts over as on a fresh counter. *)
Theorem failure_after_nexts (k : nat) (s : BackoffCounter) :
  0 ≤ _tries s → 0 ≤ max_tries s →
  (Z.of_nat k ≤ 2 ^ Z.min (max_tries s) (_tries s + 1) →
   history (CallFailure :: replicate k CallNext ++ [CallFailure]) s
   = snd (failures 2 s))
  ∧ (2 ^ Z.min (max_tries s) (_tries s + 1) < Z.of_nat k →
     history (CallFailure :: replicate k CallNext ++ [CallFailure]) s
     = snd (failure (__init__ (max_tries s)))).
Proof.
  intros Ht Hm.
  rewrite history_cons, history_snoc, history_next_calls.
  unfold do_call.
  rewrite (failure_ok s) by lia. cbn [snd].
  rewrite nexts_reversed_range. cbn [snd].
  rewrite failures_S by lia; cbv zeta. cbn [snd].
  set (T := Z.min (max_tries s) (_tries s + 1)).
  assert (0 < 2 ^ T) by (apply Z.pow_pos_nonneg; lia).
  split; intros Hk.
  - destruct (decide (k = 0%nat)) as [-> | Hk0];
      [| destruct (decide (Z.of_nat k ≤ 2 ^ T)); [| lia]].
    all: rewrite failure_ok by (cbn [_tries max_tries]; lia).
    all: cbn [snd _tries max_tries].
    all: replace (Z.min (max_tries s) (T + 1))
           with (Z.min (max_tries s) (_tries s + Z.of_nat 2))
           by (subst T; lia).
    all: reflexivity.
  - destruct (decide (k = 0%nat)); [lia |].
    destruct (decide (Z.of_nat k ≤ 2 ^ T)); [lia | reflexivity].
Qed.

Lemma failure_after_nexts_witness :
  0 ≤ _tries (__init__ 5) ∧ 0 ≤ max_tries (__init__ 5)
  ∧ history [CallFailure; CallNext; CallNext; CallFailure] (__init__ 5)
    = snd (failures 2 (__init__ 5))
  ∧ history [CallFailure; CallNext; CallNext; CallNext; CallFailure]
      (__init__ 5)
    = snd (failure (__init__ 5)).
Proof.
  assert (H0 : 0 ≤ _tries (__init__ 5)) by (simpl; lia).
  assert (H1 : 0 ≤ max_tries (__init__ 5)) by (simpl; lia).
  split; [exact H0 |]. split; [exact H1 |]. split.
  - apply (failure_after_nexts 2 (__init__ 5) H0 H1). by vm_compute.
  - apply (failure_after_nexts 3 (__init__ 5) H0 H1). by vm_compute.
Defined.

(* ===================================================================== *)
(** * Further properties of JobStatus *)
(* ===================================================================== *)

(** The members carry pairwise different integers, so the tuple
    membership test by [==] that [is_finished] relies on cannot confuse
    two members: it holds exactly when the member is in the tuple. *)
Theorem py_in_iff_member (x : JobStatus) (t : list JobStatus) :
  (∀ y : JobStatus, value x = value y → x = y)
  ∧ 1 ≤ value x ≤ 11
  ∧ (py_in x t = true ↔ x ∈ t).
Proof.
  assert (Hinj : ∀ y, value x = value y → x = y).
  { intros y. destruct x, y; simpl; intros H; first [reflexivity | lia]. }
  split; [exact Hinj |]. split; [destruct x; simpl; lia |].
  unfold py_in. rewrite existsb_exists. split.
  - intros (y & Hin & Heq). apply Z.eqb_eq, Hinj in Heq as ->.
    by apply list_elem_of_In.
  - intros Hin. exists x. split; [by apply list_elem_of_In | apply Z.eqb_refl].
Qed.

(** Read as integers, the finished statuses are REJECTED (2) and all those
    numbered after RUNNING (5); so no comparison of the integer with a
    single threshold decides [is_finished]. *)
Theorem is_finished_by_value :
  (∀ s : JobStatus, is_finished s = true ↔ value s = 2 ∨ 5 < value s)
  ∧ ¬ ∃ n : Z, ∀ s : JobStatus, is_finished s = true ↔ n ≤ value s.
Proof.
  split.
  - intros s. destruct s; simpl; split; intros H;
      first [reflexivity | discriminate H | lia].
  - intros (n & Hn).
    pose proof (proj1 (Hn REJECTED) eq_refl) as H2.
    pose proof (proj2 (Hn ACCEPTED)) as H3.
    simpl in H2, H3. assert (n ≤ 3) as H by lia.
    apply H3 in H. discriminate H.
Qed.

(* ===================================================================== *)
(** * Properties of Singleton *)
(* ===================================================================== *)

(** Once a call of a singleton class has returned an instance, the class
    is registered with it, and every later call, with whatever arguments,
    and the [instance] property return that same object without running
    the constructor and without touching the registry. *)
Theorem Singleton_same_instance {Cls Args Inst Exc : Type} `{Countable Cls}
    (construct : Cls → Args → gmap Cls Inst → (Inst + Exc) * gmap Cls Inst)
    (no_args : Args) (cls : Cls) (args : Args)
    (registry : gmap Cls Inst) (obj : Inst) :
  fst (Singleton__call__ construct cls args registry) = inl obj →
  snd (Singleton__call__ construct cls args registry) !! cls = Some obj
  ∧ (∀ args' : Args,
       Singleton__call__ construct cls args'
         (snd (Singleton__call__ construct cls args registry))
       = (inl obj, snd (Singleton__call__ construct cls args registry)))
  ∧ instance construct no_args cls
      (snd (Singleton__call__ construct cls args registry))
    = (inl obj, snd (Singleton__call__ construct cls args registry)).
Proof.
  intros Hcall.
  assert (Hreg : snd (Singleton__call__ construct cls args registry) !! cls
                 = Some obj).
  { unfold Singleton__call__ in *.
    destruct (registry !! cls) as [obj0 |] eqn:Hcls.
    - simpl in *. by simplify_eq.
    - destruct (construct cls args registry) as [[o | e] r']; simpl in *;
        [| done].
      simplify_eq. apply lookup_insert_eq. }
  split; [exact Hreg |].
  assert (Hagain : ∀ args',
            Singleton__call__ construct cls args'
              (snd (Singleton__call__ construct cls args registry))
            = (inl obj, snd (Singleton__call__ construct cls args registry))).
  { intros args'. unfold Singleton__call__ at 1. by rewrite Hreg. }
  split; [exact Hagain | apply Hagain].
Qed.

Lemma Singleton_same_instance_witness :
  fst (Singleton__call__ (Exc := unit)
         (λ (cls : string) (args : Z) reg, (inl args, reg)) "Settings" 7 ∅)
  = inl 7
  ∧ Singleton__call__ (Exc := unit)
      (λ (cls : string) (args : Z) reg, (inl args, reg)) "Settings" 8
      (snd (Singleton__call__ (Exc := unit)
              (λ (cls : string) (args : Z) reg, (inl args, reg))
              "Settings" 7 ∅))
    = (inl 7,
       snd (Singleton__call__ (Exc := unit)
              (λ (cls : string) (args : Z) reg, (inl args, reg))
              "Settings" 7 ∅)).
Proof.
  assert (H : fst (Singleton__call__ (Exc := unit)
                     (λ (cls : string) (args : Z) reg, (inl args, reg))
                     "Settings" 7 ∅) = inl 7) by reflexivity.
  split; [exact H |].
  destruct (Singleton_same_instance (Exc := unit)
              (λ (cls : string) (args : Z) reg, (inl args, reg))
              0 "Settings" 7 ∅ 7 H) as (_ & Hagain & _).
  apply Hagain.
Defined.

(** When the constructor leaves the registry alone, a call changes at most
    the entry of its own class, and a call whose constructor raises changes
    nothing at all: the class stays unregistered and the next call runs
    the constructor again. *)
Theorem Singleton_call_frame {Cls Args Inst Exc : Type} `{Countable Cls}
    (construct : Cls → Args → gmap Cls Inst → (Inst + Exc) * gmap Cls Inst)
    (cls : Cls) (args : Args) (registry : gmap Cls Inst) :
  snd (construct cls args registry) = registry →
  (∀ other : Cls,
     other ≠ cls →
     snd (Singleton__call__ construct cls args registry) !! other
     = registry !! other)
  ∧ (∀ e : Exc,
       fst (Singleton__call__ construct cls args registry) = inr e →
       snd (Singleton__call__ construct cls args registry) = registry
       ∧ registry !! cls = None
       ∧ ∀ args' : Args,
           Singleton__call__ construct cls args'
             (snd (Singleton__call__ construct cls args registry))
           = match construct cls args' registry with
             | (inl obj, registry') => (inl obj, <[cls := obj]> registry')
             | (inr e', registry') => (inr e', registry')
             end).
Proof.
  intros Hpure. unfold Singleton__call__.
  destruct (registry !! cls) as [obj0 |] eqn:Hcls.
  - split; [done |]. intros e He. discriminate He.
  - destruct (construct cls args registry) as [[o | e0] r'] eqn:Hc;
      simpl in Hpure; subst r'; cbn [fst snd].
    + split; [| intros e He; discriminate He].
      intros other Hne. by apply lookup_insert_ne.
    + split; [done |]. intros e He.
      split; [done |]. split; [done |].
      intros args'. by rewrite Hcls.
Qed.

Lemma Singleton_call_frame_witness :
  snd ((λ (cls : string) (args : Z) (reg : gmap string Z),
          (if args <? 0 then inr () else inl args, reg)) "A" (-1) ∅) = ∅
  ∧ snd (Singleton__call__
           (λ (cls : string) (args : Z) (reg : gmap string Z),
              (if args <? 0 then inr () else inl args, reg)) "A" (-1) ∅)
    = ∅.
Proof.
  split; [reflexivity |].
  destruct (Singleton_call_frame
              (λ (cls : string) (args : Z) (reg : gmap string Z),
                 (if args <? 0 then inr () else inl args, reg))
              "A" (-1) ∅ eq_refl) as (_ & Herr).
  apply (Herr ()). reflexivity.
Defined.

(* ===================================================================== *)
(** * Properties of lazy_property *)
(* ===================================================================== *)

(** A lazy property bound under the very name it caches under runs its
    initializer once per instance: the first access stores the value in
    the instance, and the next access returns that value from there,
    whatever the initializer would compute by then, and changes nothing. *)
Theorem lazy_property_cached {Val Exc : Type}
    (class_attrs : gmap string (@lazy_property Val Exc))
    (d : @lazy_property Val Exc) (owner_name attr : string)
    (__dict__ : gmap string Val) (v : Val) :
  class_attrs !! attr = Some d →
  cache_name (_init_name d) owner_name = attr →
  __dict__ !! attr = None →
  fst (_init d __dict__) = inl v →
  fst (getattr class_attrs owner_name __dict__ attr) = GotValue v
  ∧ snd (getattr class_attrs owner_name __dict__ attr) !! attr = Some v
  ∧ getattr class_attrs owner_name
      (snd (getattr class_attrs owner_name __dict__ attr)) attr
    = (GotValue v, snd (getattr class_attrs owner_name __dict__ attr)).
Proof.
  intros Hd Hname Hfresh Hinit.
  assert (Hfirst : getattr class_attrs owner_name __dict__ attr
                   = (GotValue v, <[attr := v]> (snd (_init d __dict__)))).
  { unfold getattr, __get__. rewrite Hfresh, Hd, Hname.
    destruct (_init d __dict__) as [[v0 | e] dict']; simpl in Hinit;
      [| done].
    by simplify_eq. }
  rewrite Hfirst; cbn [fst snd].
  split; [done |]. split; [apply lookup_insert_eq |].
  unfold getattr. by rewrite lookup_insert_eq.
Qed.

Lemma lazy_property_cached_witness :
  let d := mk_lazy_property (Val := Z) (Exc := unit) "size"
             (λ dict, (inl (Z.of_nat (size dict)), dict)) in
  getattr {[ "size" := d ]} "Job"
    (snd (getattr {[ "size" := d ]} "Job" ∅ "size")) "size"
  = (GotValue 0, snd (getattr {[ "size" := d ]} "Job" ∅ "size")).
Proof.
  intros d.
  apply (lazy_property_cached {[ "size" := d ]} d "Job" "size" ∅ 0);
    reflexivity.
Defined.

(** When the cache name differs from the name the property is bound
    under, as for a private property reached through an instance of
    another class than its owner, nothing is cached under the bound name:
    the next access runs the initializer again and returns what it then
    computes. *)
Theorem lazy_property_recomputed {Val Exc : Type}
    (class_attrs : gmap string (@lazy_property Val Exc))
    (d : @lazy_property Val Exc) (owner_name attr : string)
    (__dict__ dict1 dict2 : gmap string Val) (v1 v2 : Val) :
  class_attrs !! attr = Some d →
  cache_name (_init_name d) owner_name ≠ attr →
  __dict__ !! attr = None →
  _init d __dict__ = (inl v1, dict1) → dict1 !! attr = None →
  _init d (<[cache_name (_init_name d) owner_name := v1]> dict1)
  = (inl v2, dict2) →
  getattr class_attrs owner_name __dict__ attr
  = (GotValue v1, <[cache_name (_init_name d) owner_name := v1]> dict1)
  ∧ getattr class_attrs owner_name
      (<[cache_name (_init_name d) owner_name := v1]> dict1) attr
    = (GotValue v2, <[cache_name (_init_name d) owner_name := v2]> dict2).
Proof.
  intros Hd Hname Hfresh Hinit1 Hfresh1 Hinit2.
  split.
  - unfold getattr, __get__. by rewrite Hfresh, Hd, Hinit1.
  - unfold getattr, __get__.
    rewrite lookup_insert_ne, Hfresh1, Hd, Hinit2 by done. done.
Qed.

Lemma lazy_property_recomputed_witness :
  let d := mk_lazy_property (Val := Z) (Exc := unit) "__size"
             (λ dict, (inl (Z.of_nat (size dict)), dict)) in
  cache_name "__size" "Sub" ≠ "_Base__size"
  ∧ getattr {[ "_Base__size" := d ]} "Sub" ∅ "_Base__size"
    = (GotValue 0, {[ "_Sub__size" := 0 ]})
  ∧ getattr {[ "_Base__size" := d ]} "Sub" {[ "_Sub__size" := 0 ]}
      "_Base__size"
    = (GotValue 1, {[ "_Sub__size" := 1 ]}).
Proof.
  intros d.
  assert (Hne : cache_name "__size" "Sub" ≠ "_Base__size") by done.
  split; [exact Hne |].
  pose proof (lazy_property_recomputed {[ "_Base__size" := d ]} d "Sub"
                "_Base__size" ∅ ∅ {[ "_Sub__size" := 0 ]} 0 1
                eq_refl Hne eq_refl eq_refl eq_refl eq_refl) as [H1 H2].
  split; [exact H1 | exact H2].
Defined.

(* ===================================================================== *)
(** * Properties of _include_constructor *)
(* ===================================================================== *)

(** ** Splitting *)

Lemma partition_first_None (sep : Ascii.ascii) (s : string) :
  has_char sep s = false → partition_first sep s = None.
Proof.
  induction s as [| c s IH]; [done |]. simpl.
  destruct (Ascii.eqb c sep); [done |]. simpl. intros H. by rewrite IH.
Qed.

Lemma partition_first_app (sep : Ascii.ascii) (before after : string) :
  has_char sep before = false →
  partition_first sep (before +:+ String sep after) = Some (before, after).
Proof.
  induction before as [| c before IH]; intros Hc.
  - change ("" +:+ String sep after) with (String sep after). simpl.
    by rewrite Ascii.eqb_refl.
  - change (String c before +:+ String sep after)
      with (String c (before +:+ String sep after)).
    simpl in *. destruct (Ascii.eqb c sep); [done |]. by rewrite IH.
Qed.

Lemma py_split_nonempty (sep : Ascii.ascii) (s : string) :
  py_split sep s ≠ [].
Proof.
  destruct s as [| c s]; [done |]. simpl.
  destruct (Ascii.eqb c sep); [done |]. by destruct (py_split sep s).
Qed.

Lemma py_split_app (sep : Ascii.ascii) (s1 s2 : string) :
  py_split sep (s1 +:+ String sep s2) = py_split sep s1 ++ py_split sep s2.
Proof.
  induction s1 as [| c s1 IH].
  - change ("" +:+ String sep s2) with (String sep s2). simpl.
    by rewrite Ascii.eqb_refl.
  - change (String c s1 +:+ String sep s2)
      with (String c (s1 +:+ String sep s2)).
    simpl. destruct (Ascii.eqb c sep); [by rewrite IH |].
    rewrite IH. pose proof (py_split_nonempty sep s1).
    by destruct (py_split sep s1).
Qed.

Lemma path_keys_app (p1 p2 : string) :
  path_keys (p1 +:+ String "/" p2) = path_keys p1 ++ path_keys p2.
Proof.
  unfold path_keys, filter_nonempty. by rewrite py_split_app, List.filter_app.
Qed.

Lemma path_keys_slash (p : string) : path_keys (String "/" p) = path_keys p.
Proof. reflexivity. Qed.

(** ** Descending *)

Lemma descend_app {Exc : Type} (obj : yaml) (keys1 keys2 : list string) :
  descend (Exc := Exc) obj (keys1 ++ keys2)
  = match descend obj keys1 with
    | inl obj' => descend obj' keys2
    | inr e => inr e
    end.
Proof.
  revert obj; induction keys1 as [| k keys1 IH]; intros obj; [done |].
  simpl. by destruct (getitem obj k).
Qed.

(** ** The include itself, file name and key path apart *)

Lemma include_no_path {Exc : Type} (load : string → yaml + Exc)
    (root_path fn : string) :
  has_char "#" fn = false →
  _include_constructor load root_path fn = loaded load (path_join root_path fn).
Proof.
  intros Hfn. unfold _include_constructor, py_split_once, loaded.
  rewrite partition_first_None by done. cbn [List.hd].
  by destruct (load (path_join root_path fn)).
Qed.

Lemma include_with_path {Exc : Type} (load : string → yaml + Exc)
    (root_path fn path : string) :
  has_char "#" fn = false →
  _include_constructor load root_path (fn +:+ String "#" path)
  = match loaded load (path_join root_path fn) with
    | inl obj => descend obj (path_keys path)
    | inr e => inr e
    end.
Proof.
  intros Hfn. unfold _include_constructor, py_split_once, loaded.
  rewrite partition_first_app by done.
  by destruct (load (path_join root_path fn)).
Qed.

(** An include without [#], with nothing after the [#], or with only a
    slash after it, gives the whole document of the file. *)
Theorem include_whole_document {Exc : Type} (load : string → yaml + Exc)
    (root_path fn : string) :
  has_char "#" fn = false →
  _include_constructor load root_path fn
  = loaded load (path_join root_path fn)
  ∧ _include_constructor load root_path (fn +:+ "#")
    = loaded load (path_join root_path fn)
  ∧ _include_constructor load root_path (fn +:+ "#/")
    = loaded load (path_join root_path fn).
Proof.
  intros Hfn. split; [by apply include_no_path |].
  split.
  - change (fn +:+ "#") with (fn +:+ String "#" "").
    rewrite include_with_path by done.
    by destruct (loaded load (path_join root_path fn)).
  - change (fn +:+ "#/") with (fn +:+ String "#" "/").
    rewrite include_with_path by done.
    by destruct (loaded load (path_join root_path fn)).
Qed.

Lemma include_whole_document_witness :
  has_char "#" "common.yml" = false
  ∧ _include_constructor (Exc := unit)
      (λ fn, if String.eqb fn "/etc/common.yml"
             then inl (YScalar (SInt 1)) else inr ())
      "/etc" "common.yml#"
    = inl (YScalar (SInt 1)).
Proof.
  split; [reflexivity |].
  pose proof (include_whole_document (Exc := unit)
                (λ fn, if String.eqb fn "/etc/common.yml"
                       then inl (YScalar (SInt 1)) else inr ())
                "/etc" "common.yml" eq_refl) as (_ & H & _).
  exact H.
Defined.

(** Key paths compose: including [fn#p1/p2] is including [fn#p1] and then
    descending along [p2] in what that gives. *)
Theorem include_path_composes {Exc : Type} (load : string → yaml + Exc)
    (root_path fn p1 p2 : string) :
  has_char "#" fn = false →
  _include_constructor load root_path (fn +:+ "#" +:+ p1 +:+ "/" +:+ p2)
  = match _include_constructor load root_path (fn +:+ "#" +:+ p1) with
    | inl obj => descend obj (path_keys p2)
    | inr e => inr e
    end.
Proof.
  intros Hfn.
  change (fn +:+ "#" +:+ p1 +:+ "/" +:+ p2)
    with (fn +:+ String "#" (p1 +:+ String "/" p2)).
  change (fn +:+ "#" +:+ p1) with (fn +:+ String "#" p1).
  rewrite !include_with_path by done.
  destruct (loaded load (path_join root_path fn)) as [obj | e]; [| done].
  by rewrite path_keys_app, descend_app.
Qed.

Lemma include_path_composes_witness :
  has_char "#" "f.yml" = false
  ∧ _include_constructor (Exc := unit)
      (λ fn, inl (YMap [(SStr "a", YMap [(SStr "b", YScalar (SInt 3))])]))
      "/r" "f.yml#a/b"
    = inl (YScalar (SInt 3)).
Proof.
  split; [reflexivity |].
  pose proof (include_path_composes (Exc := unit)
                (λ fn, inl (YMap [(SStr "a",
                                   YMap [(SStr "b", YScalar (SInt 3))])]))
                "/r" "f.yml" "a" "b" eq_refl) as H.
  exact H.
Defined.

(** Slashes that delimit nothing do not count: a leading, a trailing or a
    doubled slash in the key path changes nothing. *)
Theorem include_ignores_empty_keys {Exc : Type} (load : string → yaml + Exc)
    (root_path fn p1 p2 : string) :
  has_char "#" fn = false →
  _include_constructor load root_path (fn +:+ "#" +:+ "/" +:+ p1)
  = _include_constructor load root_path (fn +:+ "#" +:+ p1)
  ∧ _include_constructor load root_path (fn +:+ "#" +:+ p1 +:+ "/")
    = _include_constructor load root_path (fn +:+ "#" +:+ p1)
  ∧ _include_constructor load root_path (fn +:+ "#" +:+ p1 +:+ "//" +:+ p2)
    = _include_constructor load root_path (fn +:+ "#" +:+ p1 +:+ "/" +:+ p2).
Proof.
  intros Hfn.
  change (fn +:+ "#" +:+ "/" +:+ p1) with (fn +:+ String "#" (String "/" p1)).
  change (fn +:+ "#" +:+ p1 +:+ "/")
    with (fn +:+ String "#" (p1 +:+ String "/" "")).
  change (fn +:+ "#" +:+ p1 +:+ "//" +:+ p2)
    with (fn +:+ String "#" (p1 +:+ String "/" (String "/" p2))).
  change (fn +:+ "#" +:+ p1 +:+ "/" +:+ p2)
    with (fn +:+ String "#" (p1 +:+ String "/" p2)).
  change (fn +:+ "#" +:+ p1) with (fn +:+ String "#" p1).
  rewrite !include_with_path by done.
  rewrite !path_keys_app, path_keys_slash.
  change (path_keys "") with (@nil string). by rewrite app_nil_r.
Qed.

Lemma include_ignores_empty_keys_witness :
  has_char "#" "f.yml" = false
  ∧ _include_constructor (Exc := unit)
      (λ fn, inl (YMap [(SStr "a", YMap [(SStr "b", YScalar (SInt 3))])]))
      "/r" "f.yml#a//b"
    = inl (YScalar (SInt 3)).
Proof.
  split; [reflexivity |].
  pose proof (include_ignores_empty_keys (Exc := unit)
                (λ fn, inl (YMap [(SStr "a",
                                   YMap [(SStr "b", YScalar (SInt 3))])]))
                "/r" "f.yml" "a" "b" eq_refl) as (_ & _ & H).
  exact (eq_trans H eq_refl).
Defined.

(** The loader's root directory does not confine includes: when the text
    of the include starts with a slash, the file named is opened as it
    stands, whatever the root. *)
Theorem include_absolute_ignores_root {Exc : Type}
    (load : string → yaml + Exc) (root_path root_path' text : string) :
  py_startswith text "/" = true →
  _include_constructor load root_path text
  = _include_constructor load root_path' text.
Proof.
  unfold py_startswith. intros Hslash.
  destruct text as [| c text]; [done |].
  assert (c = "/"%char) as ->.
  { destruct c as [[] [] [] [] [] [] [] []]; first [done | discriminate]. }
  clear Hslash.
  assert (Hjoin : ∀ root fn, path_join root (String "/" fn) = String "/" fn).
  { intros root fn. unfold path_join, py_startswith. cbn [String.prefix].
    destruct (Ascii.ascii_dec "/" "/"); [| done]. by destruct fn. }
  unfold _include_constructor, py_split_once.
  cbn [partition_first]. change (Ascii.eqb "/" "#") with false. cbv iota.
  destruct (partition_first "#" text) as [[before after] |];
    cbn [List.hd]; by rewrite !Hjoin.
Qed.

Lemma include_absolute_ignores_root_witness :
  py_startswith "/etc/passwd#root" "/" = true
  ∧ _include_constructor (Exc := unit)
      (λ fn, inl (YScalar (SStr fn))) "/srv/conf" "/etc/passwd#"
    = inl (YScalar (SStr "/etc/passwd")).
Proof.
  split; [reflexivity |].
  exact (eq_trans
           (include_absolute_ignores_root (Exc := unit)
              (λ fn, inl (YScalar (SStr fn))) "/srv/conf" "" "/etc/passwd#"
              eq_refl)
           eq_refl).
Defined.

(** Descent fails at the first key it cannot follow and looks at none
    after it: with KeyError naming that key when the object reached is a
    mapping without it, with TypeError when the object reached is a
    sequence or a scalar.  Only entries with a string key are ever found. *)
Theorem descend_first_failure {Exc : Type} (obj reached : yaml)
    (keys1 keys2 : list string) (key : string) :
  descend (Exc := Exc) obj keys1 = inl reached →
  descend (Exc := Exc) obj (keys1 ++ key :: keys2)
  = match reached with
    | YMap items =>
        match dict_get items key with
        | Some v => descend v keys2
        | None => inr (KeyError key)
        end
    | _ => inr TypeError
    end
  ∧ (∀ items v,
       reached = YMap items → dict_get items key = Some v →
       (SStr key, v) ∈ items).
Proof.
  intros Hreach. split.
  - rewrite descend_app, Hreach. cbn [descend]. unfold getitem.
    destruct reached as [s | l | items]; [done | done |].
    by destruct (dict_get items key).
  - intros items v _. clear Hreach.
    induction items as [| [[| b | n | k] v'] items IH]; simpl;
      try done; try (intros H; apply list_elem_of_further; by apply IH).
    destruct (String.eqb_spec k key) as [-> | _].
    + intros [= ->]. apply list_elem_of_here.
    + intros H. apply list_elem_of_further. by apply IH.
Qed.

Lemma descend_first_failure_witness :
  descend (Exc := unit) (YMap [(SStr "a", YSeq [YScalar SNull])]) ["a"]
  = inl (YSeq [YScalar SNull])
  ∧ descend (Exc := unit) (YMap [(SStr "a", YSeq [YScalar SNull])])
      (["a"] ++ "0" :: ["x"])
    = inr TypeError.
Proof.
  split; [reflexivity |].
  apply (descend_first_failure (Exc := unit)
           (YMap [(SStr "a", YSeq [YScalar SNull])])
           (YSeq [YScalar SNull]) ["a"] ["x"] "0" eq_refl).
Defined.
